(** * Pointer traversals over an [int] array

    A shallow embedding of [main.cpp]: the two traversal routines
    [increment_all] (through [int *]) and [print_all] (through
    [const int *]), and the entry point [main] that runs them over the
    local array [numbers].

    - An [int] is a 32-bit signed integer, kept as a [Z]; signed overflow
      is undefined behaviour, not wrap-around.
    - The array is a [list Z]; a pointer into it is the position of the
      element it addresses, the position [length] being the one-past-the-end
      pointer.  Reading or writing through a pointer that addresses no
      element is undefined behaviour.
    - [std::cout] is the text written so far.
    - Each routine is a computation in a small state-and-failure monad over
      the pair of the array and the output stream. *)

From Stdlib Require Import ZArith DecimalString DecimalPos DecimalZ Lia.
From stdpp Require Import base tactics option list strings.

Local Open Scope Z_scope.

(** ** Machine integers *)

Definition INT_MAX : Z := 2147483647.
Definition INT_MIN : Z := -2147483648.

Definition is_int (v : Z) : Prop := INT_MIN <= v <= INT_MAX.

(** ** The program state *)

(** A pointer is a position in the array. *)
Abbreviation ptr := nat (only parsing).

Record world : Type := World {
  mem : list Z;     (* the storage of [numbers] *)
  cout : string     (* the characters written to standard output *)
}.

(** What running a piece of code gives: a result, undefined behaviour, or
    (for a loop run with a bounded number of tests) no result yet. *)
Inductive outcome (A : Type) : Type :=
  | Done (a : A)
  | Undefined
  | OutOfFuel.

Arguments Done {A} a.
Arguments Undefined {A}.
Arguments OutOfFuel {A}.

Definition M (A : Type) : Type := world -> outcome (A * world).

#[global] Instance M_ret : MRet M := fun A a w => Done (a, w).

#[global] Instance M_bind : MBind M := fun A B f m w =>
  match m w with
  | Done (a, w') => f a w'
  | Undefined => Undefined
  | OutOfFuel => OutOfFuel
  end.

Definition undefined {A : Type} : M A := fun _ => Undefined.
Definition out_of_fuel {A : Type} : M A := fun _ => OutOfFuel.

(** The state a computation ends in, when it ends. *)
Definition final {A : Type} (o : outcome (A * world)) : outcome world :=
  match o with
  | Done (_, w) => Done w
  | Undefined => Undefined
  | OutOfFuel => OutOfFuel
  end.

Definition outcome_map {A B : Type} (f : A -> B) (o : outcome A) : outcome B :=
  match o with
  | Done a => Done (f a)
  | Undefined => Undefined
  | OutOfFuel => OutOfFuel
  end.

(** ** Primitive operations *)

(** [*p] as an rvalue. *)
Definition deref (p : ptr) : M Z := fun w =>
  match mem w !! p with
  | Some v => Done (v, w)
  | None => Undefined
  end.

(** [*p = v]. *)
Definition assign (p : ptr) (v : Z) : M unit := fun w =>
  if bool_decide (p < length (mem w))%nat
  then Done (tt, {| mem := <[p := v]> (mem w); cout := cout w |})
  else Undefined.

(** The statement that pre-increments the [int] at [p]: the incremented value
    has to be representable. *)
Definition pre_increment (p : ptr) : M unit :=
  v ← deref p;
  if bool_decide (v < INT_MAX) then assign p (v + 1) else undefined.

(** The decimal text [operator<<(int)] produces. *)
Definition dec (v : Z) : string := NilZero.string_of_int (Z.to_int v).

Definition newline : string := String (Ascii.ascii_of_nat 10) EmptyString.

(** [cout << v]. *)
Definition put_int (v : Z) : M unit := fun w =>
  Done (tt, {| mem := mem w; cout := cout w +:+ dec v |}).

(** [cout << endl]. *)
Definition put_endl : M unit := fun w =>
  Done (tt, {| mem := mem w; cout := cout w +:+ newline |}).

(** ** The two traversals *)

(** The [while] loop of [increment_all]; [fuel] bounds the number of times
    the condition [current != stop] is tested.  The result is the value of
    [current] when the loop is left. *)
Fixpoint increment_loop (fuel : nat) (stop current : ptr) : M ptr :=
  match fuel with
  | O => out_of_fuel
  | S fuel' =>
      if bool_decide (current ≠ stop) then
        pre_increment current;;
        increment_loop fuel' stop (S current)
      else mret current
  end.

(** The [while] loop of [print_all]. *)
Fixpoint print_loop (fuel : nat) (stop current : ptr) : M ptr :=
  match fuel with
  | O => out_of_fuel
  | S fuel' =>
      if bool_decide (current ≠ stop) then
        v ← deref current;
        put_int v;;
        put_endl;;
        print_loop fuel' stop (S current)
      else mret current
  end.

(** A traversal that is still running after [length + 1] tests has left the
    array, so this many tests are always enough: see [increment_loop_fuel],
    [print_loop_fuel], [increment_all_fuel] and [print_all_fuel] below. *)
Definition enough (w : world) : nat := S (length (mem w)).

Definition increment_all (start stop : ptr) : M unit := fun w =>
  (increment_loop (enough w) stop start;; mret tt) w.

Definition print_all (start stop : ptr) : M unit := fun w =>
  (print_loop (enough w) stop start;; mret tt) w.

(** ** The entry point *)

Definition numbers : list Z := [10; 20; 30].

(** The array name decays to the pointer to its first element, position 0;
    nothing has been written when [main] starts. *)
Definition main : outcome (Z * world) :=
  (increment_all 0%nat (0 + 3)%nat;;
   print_all 0%nat (0 + 3)%nat;;
   mret 0) {| mem := numbers; cout := "" |}.

(** ** Ranges *)

(** The elements of positions [start], ..., [stop - 1]. *)
Definition slice (start stop : nat) (m : list Z) : list Z :=
  take (stop - start) (drop start m).

(** [stop] is reached from [start] by advancing one element at a time
    without leaving an array of [n] elements. *)
Inductive reachable (n : nat) : ptr -> ptr -> Prop :=
  | reach_here (p : ptr) : (p <= n)%nat -> reachable n p p
  | reach_step (p q : ptr) : (p < n)%nat -> reachable n (S p) q -> reachable n p q.

(** ** Reference functions the traversals are compared with *)

(** Adding [k] to the elements of positions [start], ..., [stop - 1]. *)
Definition bump (k : Z) (start stop : nat) (m : list Z) : list Z :=
  imap (fun i v => if bool_decide (start <= i < stop)%nat then v + k else v) m.

(** One line of text per element. *)
Definition print_text (vs : list Z) : string :=
  foldr (fun v s => dec v +:+ newline +:+ s) "" vs.

(** The lines of a text, each ended by a newline character (a last line may
    lack it). *)
Fixpoint lines (s : string) : list string :=
  match s with
  | EmptyString => []
  | String a s' =>
      if Ascii.eqb a (Ascii.ascii_of_nat 10) then EmptyString :: lines s'
      else match lines s' with
           | [] => [String a EmptyString]
           | l :: ls => String a l :: ls
           end
  end.

(** Reading a decimal text back. *)
Definition read_dec (s : string) : option Z :=
  Z.of_int <$> NilZero.int_of_string s.

Fixpoint no_newline (s : string) : bool :=
  match s with
  | EmptyString => true
  | String a s' => negb (Ascii.eqb a (Ascii.ascii_of_nat 10)) && no_newline s'
  end.

(** A pass that adds the constant [k] (not negative) to every element of a
    range, written as [increment_all] is; the pass of the specification that
    adds 2 to every element is [add_all 2]. *)
Definition add_step (k : Z) (p : ptr) : M unit :=
  v ← deref p;
  if bool_decide (v + k <= INT_MAX) then assign p (v + k) else undefined.

Fixpoint add_loop (k : Z) (fuel : nat) (stop current : ptr) : M ptr :=
  match fuel with
  | O => out_of_fuel
  | S fuel' =>
      if bool_decide (current ≠ stop) then
        add_step k current;;
        add_loop k fuel' stop (S current)
      else mret current
  end.

Definition add_all (k : Z) (start stop : ptr) : M unit := fun w =>
  (add_loop k (enough w) stop start;; mret tt) w.

(** When a pass that adds [k] over [start, stop) runs without undefined
    behaviour: the range is empty, or it lies in the array and no sum
    overflows. *)
Definition runs (k : Z) (start stop : nat) (m : list Z) : Prop :=
  (start <= stop)%nat /\ (start = stop \/ stop <= length m)%nat /\
  Forall (fun v => v + k <= INT_MAX) (slice start stop m).

#[global] Instance runs_dec k start stop m : Decision (runs k start stop m).
Proof. unfold runs. apply _. Defined.

(** Reading a text back line by line. *)
Definition read_lines (s : string) : option (list Z) :=
  mapM read_dec (lines s).

(** Running a routine [n] times in succession. *)
Fixpoint passes (n : nat) (m : M unit) : M unit :=
  match n with
  | O => mret tt
  | S n' => m;; passes n' m
  end.

(** * Properties *)

(** ** Ranges and the reference functions *)

Lemma reachable_iff n p q : reachable n p q <-> (p <= q <= n)%nat.
Proof.
  split.
  - induction 1; lia.
  - intros [Hpq Hqn]. remember (q - p)%nat as d eqn:Hd.
    revert p Hpq Hd. induction d as [|d IH]; intros p Hpq Hd.
    + assert (p = q) as -> by lia. by constructor.
    + apply reach_step; [lia|]. apply IH; lia.
Qed.

Lemma slice_lookup start stop (m : list Z) j :
  (j < stop - start)%nat -> slice start stop m !! j = m !! (start + j)%nat.
Proof. intros Hj. unfold slice. rewrite lookup_take_lt by done. apply lookup_drop. Qed.

Lemma slice_Forall (P : Z -> Prop) start stop (m : list Z) :
  (stop <= length m)%nat ->
  Forall P (slice start stop m) <->
  (forall i v, (start <= i < stop)%nat -> m !! i = Some v -> P v).
Proof.
  intros Hstop. rewrite Forall_lookup. split.
  - intros H i v Hi Hv. apply (H (i - start)%nat).
    rewrite slice_lookup by lia. by replace (start + (i - start))%nat with i by lia.
  - intros H j v Hv.
    assert (j < stop - start)%nat as Hj.
    { apply lookup_lt_Some in Hv. unfold slice in Hv.
      rewrite length_take in Hv. lia. }
    rewrite slice_lookup in Hv by done. apply (H (start + j)%nat); [lia|done].
Qed.

Lemma slice_full (m : list Z) : slice 0 (length m) m = m.
Proof. unfold slice. rewrite drop_0, Nat.sub_0_r. apply firstn_all. Qed.

Lemma slice_empty p (m : list Z) : slice p p m = [].
Proof. unfold slice. by rewrite Nat.sub_diag. Qed.

Lemma bump_lookup k start stop (m : list Z) i :
  bump k start stop m !! i =
  (fun v => if bool_decide (start <= i < stop)%nat then v + k else v) <$> m !! i.
Proof. apply list_lookup_imap. Qed.

Lemma bump_length k start stop (m : list Z) :
  length (bump k start stop m) = length m.
Proof. apply length_imap. Qed.

Lemma bump_empty k p (m : list Z) : bump k p p m = m.
Proof.
  apply list_eq; intros i. rewrite bump_lookup.
  rewrite bool_decide_eq_false_2 by lia. by destruct (m !! i).
Qed.

Lemma bump_full k (m : list Z) :
  bump k 0 (length m) m = (fun v => v + k) <$> m.
Proof.
  apply list_eq; intros i. rewrite bump_lookup, list_lookup_fmap.
  destruct (m !! i) as [v|] eqn:Hv; [|done]. simpl.
  apply lookup_lt_Some in Hv. by rewrite bool_decide_eq_true_2 by lia.
Qed.

Lemma bump_bump j k start stop (m : list Z) :
  bump k start stop (bump j start stop m) = bump (j + k) start stop m.
Proof.
  apply list_eq; intros i. rewrite !bump_lookup.
  destruct (m !! i) as [v|]; [|done]. simpl.
  case_bool_decide; f_equal; lia.
Qed.

Lemma bump_insert k c stop (m : list Z) v :
  (c < stop)%nat -> m !! c = Some v ->
  bump k (S c) stop (<[c := v + k]> m) = bump k c stop m.
Proof.
  intros Hc Hv. apply list_eq; intros i. rewrite !bump_lookup.
  destruct (decide (i = c)) as [->|Hne].
  - rewrite list_lookup_insert_eq by (by eapply lookup_lt_Some).
    rewrite Hv. simpl.
    rewrite bool_decide_eq_false_2, bool_decide_eq_true_2 by lia. done.
  - rewrite list_lookup_insert_ne by done.
    destruct (m !! i) as [x|]; [|done]. simpl.
    f_equal. repeat case_bool_decide; try done; lia.
Qed.

Lemma slice_bump j k start stop (m : list Z) :
  (stop <= length m)%nat ->
  Forall (fun v => v + k <= INT_MAX) (slice start stop (bump j start stop m)) <->
  Forall (fun v => v + j + k <= INT_MAX) (slice start stop m).
Proof.
  intros Hstop.
  rewrite !slice_Forall by (rewrite ?bump_length; done).
  split; intros H i v Hi Hv.
  - apply (H i (v + j) Hi). rewrite bump_lookup, Hv. simpl.
    by rewrite bool_decide_eq_true_2.
  - rewrite bump_lookup in Hv. destruct (m !! i) as [x|] eqn:Hx; [|done].
    simpl in Hv. rewrite bool_decide_eq_true_2 in Hv by done.
    injection Hv as <-. by apply (H i x).
Qed.

(** ** Stepping the code *)

Lemma add_step_eq k p w :
  add_step k p w =
  match mem w !! p with
  | Some v =>
      if bool_decide (v + k <= INT_MAX)
      then Done (tt, {| mem := <[p := v + k]> (mem w); cout := cout w |})
      else Undefined
  | None => Undefined
  end.
Proof.
  unfold add_step, mbind, M_bind, deref.
  destruct (mem w !! p) as [v|] eqn:Hv; [|done].
  case_bool_decide; [|done].
  unfold assign. by rewrite bool_decide_eq_true_2 by (by eapply lookup_lt_Some).
Qed.

Lemma add_loop_S k fuel stop c w :
  add_loop k (S fuel) stop c w =
  if bool_decide (c ≠ stop) then
    match add_step k c w with
    | Done (_, w') => add_loop k fuel stop (S c) w'
    | Undefined => Undefined
    | OutOfFuel => OutOfFuel
    end
  else Done (c, w).
Proof. simpl. by case_bool_decide. Qed.

Lemma pre_increment_add_step p w : pre_increment p w = add_step 1 p w.
Proof.
  unfold pre_increment, add_step, mbind, M_bind.
  destruct (deref p w) as [[v w']| |]; [|done..].
  by rewrite (bool_decide_ext (v < INT_MAX) (v + 1 <= INT_MAX)) by lia.
Qed.

Lemma increment_loop_add_loop fuel stop c w :
  increment_loop fuel stop c w = add_loop 1 fuel stop c w.
Proof.
  revert c w. induction fuel as [|fuel IH]; intros c w; [done|].
  simpl. case_bool_decide; [|done].
  unfold mbind, M_bind. rewrite pre_increment_add_step.
  destruct (add_step 1 c w) as [[[] w']| |]; [apply IH|done..].
Qed.

Lemma increment_all_add_all start stop w :
  increment_all start stop w = add_all 1 start stop w.
Proof.
  unfold increment_all, add_all, mbind, M_bind.
  by rewrite increment_loop_add_loop.
Qed.

(** ** The loops *)

Section add_loop.
Variable k : Z.

(** With [stop - current] tests the loop is still running. *)
Lemma add_loop_running d : forall fuel stop c w,
  (c + d = stop)%nat -> (stop <= length (mem w))%nat ->
  Forall (fun v => v + k <= INT_MAX) (slice c stop (mem w)) ->
  (fuel <= d)%nat ->
  add_loop k fuel stop c w = OutOfFuel.
Proof.
  induction d as [|d IH]; intros fuel stop c w Hd Hstop Hsafe Hfuel.
  - by replace fuel with 0%nat by lia.
  - destruct fuel as [|fuel]; [done|].
    rewrite add_loop_S, bool_decide_eq_true_2 by lia.
    rewrite add_step_eq.
    destruct (lookup_lt_is_Some_2 (mem w) c) as [v Hv]; [lia|].
    rewrite Hv.
    rewrite slice_Forall in Hsafe by done.
    rewrite bool_decide_eq_true_2 by (apply (Hsafe c); [lia|done]).
    apply IH; simpl; rewrite ?length_insert; try lia.
    rewrite slice_Forall by (by rewrite length_insert).
    intros i x Hi Hx. rewrite list_lookup_insert_ne in Hx by lia.
    apply (Hsafe i); [lia|done].
Qed.

(** With one test more it has left through [current == stop]. *)
Lemma add_loop_done d : forall fuel stop c w,
  (c + d = stop)%nat -> (c = stop \/ stop <= length (mem w))%nat ->
  Forall (fun v => v + k <= INT_MAX) (slice c stop (mem w)) ->
  (d < fuel)%nat ->
  add_loop k fuel stop c w =
  Done (stop, {| mem := bump k c stop (mem w); cout := cout w |}).
Proof.
  induction d as [|d IH]; intros fuel stop c w Hd Hstop Hsafe Hfuel;
    (destruct fuel as [|fuel]; [lia|]); rewrite add_loop_S.
  - assert (c = stop) as -> by lia.
    rewrite bool_decide_eq_false_2 by auto. rewrite bump_empty. by destruct w.
  - destruct Hstop as [?|Hstop]; [lia|].
    rewrite bool_decide_eq_true_2 by lia.
    rewrite add_step_eq.
    destruct (lookup_lt_is_Some_2 (mem w) c) as [v Hv]; [lia|].
    rewrite Hv.
    rewrite slice_Forall in Hsafe by done.
    rewrite bool_decide_eq_true_2 by (apply (Hsafe c); [lia|done]).
    rewrite IH; simpl; rewrite ?length_insert; try lia.
    + by rewrite bump_insert by (done || lia).
    + rewrite slice_Forall by (by rewrite length_insert).
      intros i x Hi Hx. rewrite list_lookup_insert_ne in Hx by lia.
      apply (Hsafe i); [lia|done].
Qed.

(** The loop is left only through [current == stop], and only when the
    pass runs. *)
Lemma add_loop_inv fuel : forall stop c w p w',
  add_loop k fuel stop c w = Done (p, w') ->
  p = stop /\ runs k c stop (mem w).
Proof.
  induction fuel as [|fuel IH]; intros stop c w p w' Hrun; [done|].
  rewrite add_loop_S in Hrun. case_bool_decide as Hc.
  - rewrite add_step_eq in Hrun.
    destruct (mem w !! c) as [v|] eqn:Hv; [|done].
    case_bool_decide as Hk; [|done].
    apply IH in Hrun as [-> (Hle & Hin & Hsafe)]. simpl in *.
    rewrite length_insert in Hin.
    apply lookup_lt_Some in Hv as Hlt.
    assert (stop <= length (mem w))%nat as Hstop by lia.
    split; [done|]. split; [lia|]. split; [by right|].
    rewrite slice_Forall in Hsafe by (by rewrite length_insert).
    rewrite slice_Forall by done.
    intros i x Hi Hx. destruct (decide (i = c)) as [->|Hne].
    + by replace x with v by congruence.
    + apply (Hsafe i); [lia|]. by rewrite list_lookup_insert_ne.
  - subst c. injection Hrun as <- <-.
    split; [done|]. split; [done|]. split; [by left|].
    by rewrite slice_empty.
Qed.

(** [length + 1] tests are always enough. *)
Lemma add_loop_fuel fuel : forall stop c w,
  (length (mem w) - c < fuel)%nat ->
  add_loop k fuel stop c w <> OutOfFuel.
Proof.
  induction fuel as [|fuel IH]; intros stop c w Hfuel; [lia|].
  rewrite add_loop_S. case_bool_decide; [|done].
  rewrite add_step_eq.
  destruct (mem w !! c) as [v|] eqn:Hv; [|done].
  case_bool_decide; [|done].
  apply lookup_lt_Some in Hv.
  apply IH. simpl. rewrite length_insert. lia.
Qed.

Lemma add_all_runs start stop w :
  runs k start stop (mem w) ->
  add_all k start stop w =
  Done (tt, {| mem := bump k start stop (mem w); cout := cout w |}).
Proof.
  intros (Hle & Hin & Hsafe). unfold add_all, mbind, M_bind.
  rewrite (add_loop_done (stop - start)); unfold enough; try done; lia.
Qed.

Lemma add_all_undefined start stop w :
  ~ runs k start stop (mem w) -> add_all k start stop w = Undefined.
Proof.
  intros Hno. unfold add_all, mbind, M_bind.
  destruct (add_loop k (enough w) stop start w) as [[p w']| |] eqn:Hrun; [|done|].
  - by apply add_loop_inv in Hrun as [_ ?].
  - apply add_loop_fuel in Hrun; [done|]. unfold enough. lia.
Qed.
End add_loop.

(** ** The text written *)

Lemma string_app_cons a (s t : string) : String a s +:+ t = String a (s +:+ t).
Proof. reflexivity. Qed.

Lemma string_app_assoc (s t u : string) : (s +:+ t) +:+ u = s +:+ (t +:+ u).
Proof.
  induction s as [|a s IH]; [done|]. rewrite !string_app_cons. by f_equal.
Qed.

Lemma string_app_empty_r (s : string) : s +:+ "" = s.
Proof.
  induction s as [|a s IH]; [done|]. rewrite string_app_cons. by f_equal.
Qed.

Lemma no_newline_uint d : no_newline (NilEmpty.string_of_uint d) = true.
Proof. induction d; simpl; done. Qed.

Lemma no_newline_dec v : no_newline (dec v) = true.
Proof.
  unfold dec.
  destruct (Z.to_int v) as [d|d]; simpl;
    (destruct d; [done | apply (no_newline_uint (_ _)) ..]).
Qed.

Lemma read_dec_dec v : read_dec (dec v) = Some v.
Proof.
  unfold read_dec, dec. rewrite NilZero.isi.
  - simpl. by rewrite DecimalZ.of_to.
  - destruct v as [|p|p]; simpl; [done| |done].
    intros [=H]. by apply Unsigned.to_uint_nonnil in H.
  - destruct v as [|p|p]; simpl; [done..|].
    intros [=H]. by apply Unsigned.to_uint_nonnil in H.
Qed.

Lemma dec_inj v1 v2 : dec v1 = dec v2 -> v1 = v2.
Proof.
  intros H. apply (f_equal read_dec) in H.
  rewrite !read_dec_dec in H. by injection H.
Qed.

Lemma lines_line s rest :
  no_newline s = true -> lines (s +:+ newline +:+ rest) = s :: lines rest.
Proof.
  induction s as [|a s IH]; intros Hs; [done|].
  rewrite string_app_cons. simpl in *.
  apply andb_true_iff in Hs as [Ha Hs].
  apply negb_true_iff in Ha. rewrite Ha. by rewrite IH.
Qed.

Lemma lines_print_text vs : lines (print_text vs) = dec <$> vs.
Proof.
  induction vs as [|v vs IH]; [done|]. simpl.
  rewrite lines_line by apply no_newline_dec. by rewrite IH.
Qed.

Lemma slice_cons c stop (m : list Z) v :
  (c < stop)%nat -> m !! c = Some v ->
  slice c stop m = v :: slice (S c) stop m.
Proof.
  intros Hc Hv. unfold slice. rewrite (drop_S _ _ _ Hv).
  by replace (stop - c)%nat with (S (stop - S c)) by lia.
Qed.

Lemma print_loop_S fuel stop c w :
  print_loop (S fuel) stop c w =
  if bool_decide (c ≠ stop) then
    match mem w !! c with
    | Some v =>
        print_loop fuel stop (S c)
          {| mem := mem w; cout := (cout w +:+ dec v) +:+ newline |}
    | None => Undefined
    end
  else Done (c, w).
Proof.
  simpl. case_bool_decide; [|done].
  unfold mbind, M_bind, deref. by destruct (mem w !! c).
Qed.

Lemma print_loop_running d : forall fuel stop c w,
  (c + d = stop)%nat -> (stop <= length (mem w))%nat -> (fuel <= d)%nat ->
  print_loop fuel stop c w = OutOfFuel.
Proof.
  induction d as [|d IH]; intros fuel stop c w Hd Hstop Hfuel.
  - by replace fuel with 0%nat by lia.
  - destruct fuel as [|fuel]; [done|].
    rewrite print_loop_S, bool_decide_eq_true_2 by lia.
    destruct (lookup_lt_is_Some_2 (mem w) c) as [v ->]; [lia|].
    apply IH; simpl; lia.
Qed.

Lemma print_loop_done d : forall fuel stop c w,
  (c + d = stop)%nat -> (c = stop \/ stop <= length (mem w))%nat ->
  (d < fuel)%nat ->
  print_loop fuel stop c w =
  Done (stop, {| mem := mem w;
                 cout := cout w +:+ print_text (slice c stop (mem w)) |}).
Proof.
  induction d as [|d IH]; intros fuel stop c w Hd Hstop Hfuel;
    (destruct fuel as [|fuel]; [lia|]); rewrite print_loop_S.
  - assert (c = stop) as -> by lia.
    rewrite bool_decide_eq_false_2 by auto. rewrite slice_empty. simpl.
    rewrite string_app_empty_r. by destruct w.
  - destruct Hstop as [?|Hstop]; [lia|].
    rewrite bool_decide_eq_true_2 by lia.
    destruct (lookup_lt_is_Some_2 (mem w) c) as [v Hv]; [lia|].
    rewrite Hv. rewrite IH; simpl; try lia.
    rewrite (slice_cons c stop _ v) by (done || lia). simpl.
    by rewrite !string_app_assoc.
Qed.

Lemma print_loop_inv fuel : forall stop c w p w',
  print_loop fuel stop c w = Done (p, w') ->
  p = stop /\ (c <= stop)%nat /\ (c = stop \/ stop <= length (mem w))%nat.
Proof.
  induction fuel as [|fuel IH]; intros stop c w p w' Hrun; [done|].
  rewrite print_loop_S in Hrun. case_bool_decide as Hc.
  - destruct (mem w !! c) as [v|] eqn:Hv; [|done].
    apply IH in Hrun as (-> & Hle & Hin). simpl in *.
    apply lookup_lt_Some in Hv. split; [done|]. split; [lia|]. right. lia.
  - subst c. injection Hrun as <- <-. auto.
Qed.

Lemma print_loop_fuel fuel : forall stop c w,
  (length (mem w) - c < fuel)%nat ->
  print_loop fuel stop c w <> OutOfFuel.
Proof.
  induction fuel as [|fuel IH]; intros stop c w Hfuel; [lia|].
  rewrite print_loop_S. case_bool_decide; [|done].
  destruct (mem w !! c) as [v|] eqn:Hv; [|done].
  apply lookup_lt_Some in Hv. apply IH. simpl. lia.
Qed.

Lemma print_all_runs start stop w :
  (start <= stop)%nat -> (start = stop \/ stop <= length (mem w))%nat ->
  print_all start stop w =
  Done (tt, {| mem := mem w;
               cout := cout w +:+ print_text (slice start stop (mem w)) |}).
Proof.
  intros Hle Hin. unfold print_all, mbind, M_bind.
  rewrite (print_loop_done (stop - start)); unfold enough; try done; lia.
Qed.

Lemma print_all_undefined start stop w :
  ~ ((start <= stop)%nat /\ (start = stop \/ stop <= length (mem w))%nat) ->
  print_all start stop w = Undefined.
Proof.
  intros Hno. unfold print_all, mbind, M_bind.
  destruct (print_loop (enough w) stop start w) as [[p w']| |] eqn:Hrun; [|done|].
  - by apply print_loop_inv in Hrun as [_ ?].
  - apply print_loop_fuel in Hrun; [done|]. unfold enough. lia.
Qed.

(** ** Consequences for [increment_all] *)

Lemma increment_all_runs start stop w :
  runs 1 start stop (mem w) ->
  increment_all start stop w =
  Done (tt, {| mem := bump 1 start stop (mem w); cout := cout w |}).
Proof. rewrite increment_all_add_all. apply add_all_runs. Qed.

Lemma increment_all_undefined start stop w :
  ~ runs 1 start stop (mem w) -> increment_all start stop w = Undefined.
Proof. rewrite increment_all_add_all. apply add_all_undefined. Qed.

Lemma increment_all_inv start stop w u w' :
  increment_all start stop w = Done (u, w') ->
  runs 1 start stop (mem w) /\
  w' = {| mem := bump 1 start stop (mem w); cout := cout w |}.
Proof.
  intros Hrun. destruct (decide (runs 1 start stop (mem w))) as [Hr|Hr].
  - split; [done|]. rewrite increment_all_runs in Hrun by done. congruence.
  - by rewrite increment_all_undefined in Hrun.
Qed.

Lemma runs_lt start stop (m : list Z) :
  (start <= stop <= length m)%nat ->
  Forall (fun v => v < INT_MAX) (slice start stop m) ->
  runs 1 start stop m.
Proof.
  intros [Hle Hin] Hsafe. split; [done|]. split; [by right|].
  eapply Forall_impl; [exact Hsafe|]. simpl. lia.
Qed.

Lemma runs_two start stop (m : list Z) :
  runs 2 start stop m <->
  runs 1 start stop m /\ runs 1 start stop (bump 1 start stop m).
Proof.
  unfold runs. rewrite bump_length.
  destruct (decide (start = stop)) as [->|Hne].
  { rewrite !slice_empty. split; [intros _|intros _]; repeat split; auto. }
  split.
  - intros (Hle & Hin & Hsafe).
    assert (stop <= length m)%nat as Hstop by lia.
    repeat split; try done.
    + eapply Forall_impl; [exact Hsafe|]. simpl. lia.
    + apply slice_bump; [done|].
      eapply Forall_impl; [exact Hsafe|]. simpl. lia.
  - intros [(Hle & Hin & Hsafe1) (_ & _ & Hsafe2)].
    assert (stop <= length m)%nat as Hstop by lia.
    repeat split; try done.
    apply slice_bump in Hsafe2; [|done].
    eapply Forall_impl; [exact Hsafe2|]. simpl. lia.
Qed.

(** Two passes of [increment_all] and one pass adding 2 have the same
    outcome on every state, undefined behaviour included. *)
Lemma increment_all_twice_add_all start stop w :
  (increment_all start stop;; increment_all start stop) w =
  add_all 2 start stop w.
Proof.
  unfold mbind, M_bind.
  destruct (decide (runs 2 start stop (mem w))) as [H2|H2].
  - apply runs_two in H2 as H1. destruct H1 as [H1 H1'].
    rewrite increment_all_runs by done.
    rewrite increment_all_runs by done. simpl.
    rewrite add_all_runs by done. by rewrite bump_bump.
  - rewrite (add_all_undefined 2) by done.
    destruct (decide (runs 1 start stop (mem w))) as [H1|H1].
    + rewrite increment_all_runs by done.
      apply increment_all_undefined. simpl. intros H1'.
      apply H2, runs_two. done.
    + by rewrite increment_all_undefined.
Qed.

(** The elements stay [int]s. *)
Lemma bump_is_int k start stop (m : list Z) :
  0 <= k -> runs k start stop m -> Forall is_int m ->
  Forall is_int (bump k start stop m).
Proof.
  intros Hk (Hle & Hin & Hsafe) Hm. apply Forall_lookup. intros i x Hx.
  rewrite bump_lookup in Hx. destruct (m !! i) as [v|] eqn:Hv; [|done].
  simpl in Hx. injection Hx as <-.
  pose proof (proj1 (Forall_lookup _ _) Hm i v Hv) as [Hlo Hhi].
  case_bool_decide as Hi; [|done].
  destruct Hin as [->|Hin]; [lia|].
  rewrite slice_Forall in Hsafe by done.
  split; [lia|]. by apply (Hsafe i).
Qed.

(** ** The bound on the number of tests does not matter *)

Lemma add_loop_mono k fuel : forall fuel' stop c w,
  (fuel <= fuel')%nat ->
  add_loop k fuel stop c w <> OutOfFuel ->
  add_loop k fuel' stop c w = add_loop k fuel stop c w.
Proof.
  induction fuel as [|fuel IH]; intros fuel' stop c w Hle Hrun; [done|].
  destruct fuel' as [|fuel']; [lia|].
  rewrite !add_loop_S in *. case_bool_decide; [|done].
  destruct (add_step k c w) as [[[] w']| |]; [|done..].
  apply IH; [lia|done].
Qed.

Lemma print_loop_mono fuel : forall fuel' stop c w,
  (fuel <= fuel')%nat ->
  print_loop fuel stop c w <> OutOfFuel ->
  print_loop fuel' stop c w = print_loop fuel stop c w.
Proof.
  induction fuel as [|fuel IH]; intros fuel' stop c w Hle Hrun; [done|].
  destruct fuel' as [|fuel']; [lia|].
  rewrite !print_loop_S in *. case_bool_decide; [|done].
  destruct (mem w !! c) as [v|]; [|done].
  apply IH; [lia|done].
Qed.

Lemma increment_loop_fuel fuel stop c w :
  (length (mem w) - c < fuel)%nat ->
  increment_loop fuel stop c w <> OutOfFuel.
Proof. rewrite increment_loop_add_loop. apply add_loop_fuel. Qed.

(** Any larger number of tests gives the outcome of [increment_all]. *)
Lemma increment_all_fuel fuel start stop w :
  (enough w <= fuel)%nat ->
  (increment_loop fuel stop start;; mret tt) w = increment_all start stop w.
Proof.
  intros Hfuel. unfold increment_all, mbind, M_bind.
  rewrite !increment_loop_add_loop.
  rewrite (add_loop_mono 1 (enough w) fuel); [done..|].
  apply add_loop_fuel. unfold enough. lia.
Qed.

(** Any larger number of tests gives the outcome of [print_all]. *)
Lemma print_all_fuel fuel start stop w :
  (enough w <= fuel)%nat ->
  (print_loop fuel stop start;; mret tt) w = print_all start stop w.
Proof.
  intros Hfuel. unfold print_all, mbind, M_bind.
  rewrite (print_loop_mono (enough w) fuel); [done..|].
  apply print_loop_fuel. unfold enough. lia.
Qed.

(** * The properties of the specification *)

(** ** Mutate-All over the full range *)

(** C1, as stated, fails: an element equal to [INT_MAX] cannot be
    incremented, the pass is undefined there and yields no sequence. *)
Lemma increment_all_full_overflow :
  increment_all 0 1 {| mem := [INT_MAX]; cout := "" |} = Undefined /\
  ~ (forall (m : list Z) (out : string),
       increment_all 0 (length m) {| mem := m; cout := out |} =
       Done (tt, {| mem := (fun v => v + 1) <$> m; cout := out |})).
Proof.
  split; [by vm_compute|].
  intros H. specialize (H [INT_MAX] ""). by vm_compute in H.
Qed.

(** C1 (amended): for every sequence of length n whose elements are all less
    than [INT_MAX], [increment_all] over the full range [0, n) returns, and
    the sequence it leaves has the same length, with the element at each
    position equal to the old element at that position plus exactly 1. *)
Theorem increment_all_full (m : list Z) (out : string) :
  Forall (fun v => v < INT_MAX) m ->
  exists m',
    increment_all 0 (length m) {| mem := m; cout := out |} =
      Done (tt, {| mem := m'; cout := out |}) /\
    m' = (fun v => v + 1) <$> m /\
    length m' = length m /\
    (forall i v, m !! i = Some v -> m' !! i = Some (v + 1)).
Proof.
  intros Hsafe. exists ((fun v => v + 1) <$> m). split; [|split; [done|split]].
  - rewrite increment_all_runs; simpl.
    + by rewrite bump_full.
    + apply runs_lt; [lia|]. by rewrite slice_full.
  - apply length_fmap.
  - intros i v Hv. by rewrite list_lookup_fmap, Hv.
Qed.

Lemma increment_all_full_witness :
  Forall (fun v => v < INT_MAX) [10; 20; 30] /\
  exists m',
    increment_all 0 3 {| mem := [10; 20; 30]; cout := "" |} =
      Done (tt, {| mem := m'; cout := "" |}) /\
    m' = [11; 21; 31] /\
    length m' = 3%nat /\
    (forall i v, [10; 20; 30] !! i = Some v -> m' !! i = Some (v + 1)).
Proof.
  assert (Forall (fun v => v < INT_MAX) [10; 20; 30]) as H
    by (repeat (constructor; [reflexivity|]); constructor).
  split; [exact H|]. exact (increment_all_full [10; 20; 30] "" H).
Defined.

(** ** The scenario of the entry point *)

(** C2: [main] starts from the sequence [10, 20, 30]; [increment_all] over the
    whole range leaves [11, 21, 31]; [print_all] then writes exactly the three
    lines 11, 21, 31, in that order; and [main] returns 0. *)
Theorem main_scenario :
  numbers = [10; 20; 30] /\
  increment_all 0 3 {| mem := numbers; cout := "" |} =
    Done (tt, {| mem := [11; 21; 31]; cout := "" |}) /\
  print_all 0 3 {| mem := [11; 21; 31]; cout := "" |} =
    Done (tt, {| mem := [11; 21; 31];
                 cout := "11" +:+ newline +:+ "21" +:+ newline +:+ "31" +:+ newline |}) /\
  main =
    Done (0, {| mem := [11; 21; 31];
                cout := "11" +:+ newline +:+ "21" +:+ newline +:+ "31" +:+ newline |}) /\
  lines ("11" +:+ newline +:+ "21" +:+ newline +:+ "31" +:+ newline) =
    ["11"; "21"; "31"].
Proof. repeat split; by vm_compute. Qed.

(** ** Print-All over the full range *)

(** C3: for every sequence of length n, [print_all] over the full range
    returns having appended to the output exactly n lines, the i-th line being
    the decimal text of the i-th element (a text that reads back as that
    element). *)
Theorem print_all_full (m : list Z) (out : string) :
  print_all 0 (length m) {| mem := m; cout := out |} =
    Done (tt, {| mem := m; cout := out +:+ print_text m |}) /\
  lines (print_text m) = dec <$> m /\
  length (lines (print_text m)) = length m /\
  (forall i v, m !! i = Some v ->
     lines (print_text m) !! i = Some (dec v) /\ read_dec (dec v) = Some v).
Proof.
  split; [|split; [|split]].
  - rewrite print_all_runs; simpl; [|lia|right; lia]. by rewrite slice_full.
  - apply lines_print_text.
  - by rewrite lines_print_text, length_fmap.
  - intros i v Hv. split; [|apply read_dec_dec].
    by rewrite lines_print_text, list_lookup_fmap, Hv.
Qed.

(** C4: for every sequence and every valid range over it, [print_all] returns
    and the sequence after the call equals the sequence before the call. *)
Theorem print_all_frame (start stop : nat) (w : world) :
  (start <= stop <= length (mem w))%nat ->
  exists w', print_all start stop w = Done (tt, w') /\ mem w' = mem w.
Proof.
  intros [Hle Hin]. eexists. split; [apply print_all_runs; auto|done].
Qed.

Lemma print_all_frame_witness :
  (1 <= 3 <= length [4; 5; 6; 7])%nat /\
  exists w', print_all 1 3 {| mem := [4; 5; 6; 7]; cout := "x" |} = Done (tt, w') /\
             mem w' = [4; 5; 6; 7].
Proof.
  assert (1 <= 3 <= length [4; 5; 6; 7])%nat as H by (simpl; lia).
  split; [exact H|].
  exact (print_all_frame 1 3 {| mem := [4; 5; 6; 7]; cout := "x" |} H).
Defined.

(** ** Two passes of Mutate-All *)

(** C5: for every sequence and every valid range over it, running
    [increment_all] twice over the range has the same outcome as one pass
    that adds 2 to every element of the range; when no element of the range
    exceeds [INT_MAX - 2] both return, leaving the sequence in which exactly
    the elements of the range have grown by 2. *)
Theorem increment_all_twice (start stop : nat) (w : world) :
  (start <= stop <= length (mem w))%nat ->
  (increment_all start stop;; increment_all start stop) w =
    add_all 2 start stop w /\
  (Forall (fun v => v + 2 <= INT_MAX) (slice start stop (mem w)) ->
   (increment_all start stop;; increment_all start stop) w =
     Done (tt, {| mem := bump 2 start stop (mem w); cout := cout w |}) /\
   forall i v, mem w !! i = Some v ->
     bump 2 start stop (mem w) !! i =
     Some (if bool_decide (start <= i < stop)%nat then v + 2 else v)).
Proof.
  intros [Hle Hin]. split; [apply increment_all_twice_add_all|].
  intros Hsafe. split.
  - rewrite increment_all_twice_add_all. apply add_all_runs.
    split; [done|]. split; [by right|done].
  - intros i v Hv. by rewrite bump_lookup, Hv.
Qed.

Lemma increment_all_twice_witness :
  (1 <= 3 <= length [5; 6; 7; 8])%nat /\
  (increment_all 1 3;; increment_all 1 3) {| mem := [5; 6; 7; 8]; cout := "" |} =
    add_all 2 1 3 {| mem := [5; 6; 7; 8]; cout := "" |} /\
  (increment_all 1 3;; increment_all 1 3) {| mem := [5; 6; 7; 8]; cout := "" |} =
    Done (tt, {| mem := [5; 8; 9; 8]; cout := "" |}).
Proof.
  assert (1 <= 3 <= length [5; 6; 7; 8])%nat as H by (simpl; lia).
  assert (Forall (fun v => v + 2 <= INT_MAX) (slice 1 3 [5; 6; 7; 8])) as Hs
    by (repeat (constructor; [by vm_compute|]); constructor).
  pose proof (increment_all_twice 1 3 {| mem := [5; 6; 7; 8]; cout := "" |} H)
    as [Heq Hrun].
  split; [exact H|]. split; [exact Heq|]. exact (proj1 (Hrun Hs)).
Defined.

(** ** The empty range *)

(** C6: for every sequence, when the start pointer equals the stop pointer
    both loops are left at their first test, without running their body:
    [increment_all] returns the state unchanged, and [print_all] returns it
    unchanged too, having written nothing. *)
Theorem empty_range (p : nat) (w : world) :
  increment_loop 1 p p w = Done (p, w) /\
  increment_all p p w = Done (tt, w) /\
  print_loop 1 p p w = Done (p, w) /\
  print_all p p w = Done (tt, w).
Proof.
  assert (forall fuel, increment_loop (S fuel) p p w = Done (p, w)) as Hi.
  { intros fuel. simpl. by rewrite bool_decide_eq_false_2 by auto. }
  assert (forall fuel, print_loop (S fuel) p p w = Done (p, w)) as Hp.
  { intros fuel. simpl. by rewrite bool_decide_eq_false_2 by auto. }
  split; [apply Hi|]. split; [|split; [apply Hp|]].
  - unfold increment_all, enough, mbind, M_bind. by rewrite Hi.
  - unfold print_all, enough, mbind, M_bind. by rewrite Hp.
Qed.

(** ** Termination *)

(** C7, as stated, fails for [increment_all]: with the stop pointer reachable
    from the start pointer but an element equal to [INT_MAX] in the range,
    the traversal never gets to [current == stop]. *)
Lemma increment_loop_overflow :
  reachable 2 0 2 /\
  increment_all 0 2 {| mem := [5; INT_MAX]; cout := "" |} = Undefined /\
  ~ (forall (start stop : nat) (w : world),
       reachable (length (mem w)) start stop ->
       exists fuel w', increment_loop fuel stop start w = Done (stop, w')).
Proof.
  assert (reachable 2 0 2) as Hr by (apply reachable_iff; lia).
  split; [done|]. split; [by vm_compute|].
  intros H.
  destruct (H 0%nat 2%nat {| mem := [5; INT_MAX]; cout := "" |} Hr)
    as (fuel & w' & Hrun).
  rewrite increment_loop_add_loop in Hrun.
  apply add_loop_inv in Hrun as [_ (_ & _ & Hsafe)].
  apply (proj1 (Forall_lookup _ _)) with (i := 1%nat) (x := INT_MAX) in Hsafe;
    [unfold INT_MAX in Hsafe; lia | reflexivity].
Qed.

(** C7 (amended): when the stop pointer is reachable from the start pointer
    by advancing one element at a time inside the sequence, [print_all]
    returns, and so does [increment_all] provided no element of the range
    equals [INT_MAX]; each loop is still running after [stop - start] tests of
    its condition and is left at the next one, with [current] equal to [stop];
    no run leaves a loop with [current] at another position. *)
Theorem traversals_stop_at_sentinel (start stop : nat) (w : world) :
  reachable (length (mem w)) start stop ->
  ((forall fuel, (fuel <= stop - start)%nat ->
      print_loop fuel stop start w = OutOfFuel) /\
   (forall fuel, (stop - start < fuel)%nat ->
      exists w', print_loop fuel stop start w = Done (stop, w')) /\
   (forall fuel p w', print_loop fuel stop start w = Done (p, w') -> p = stop) /\
   (exists w', print_all start stop w = Done (tt, w'))) /\
  (Forall (fun v => v < INT_MAX) (slice start stop (mem w)) ->
   (forall fuel, (fuel <= stop - start)%nat ->
      increment_loop fuel stop start w = OutOfFuel) /\
   (forall fuel, (stop - start < fuel)%nat ->
      exists w', increment_loop fuel stop start w = Done (stop, w')) /\
   (forall fuel p w', increment_loop fuel stop start w = Done (p, w') -> p = stop) /\
   (exists w', increment_all start stop w = Done (tt, w'))).
Proof.
  intros [Hle Hin]%reachable_iff. split.
  - split; [|split; [|split]].
    + intros fuel Hfuel. apply (print_loop_running (stop - start)); lia.
    + intros fuel Hfuel. eexists.
      apply (print_loop_done (stop - start)); [lia|by right|lia].
    + intros fuel p w' Hrun. by apply print_loop_inv in Hrun as [? _].
    + eexists. apply print_all_runs; auto.
  - intros Hsafe.
    assert (runs 1 start stop (mem w)) as (_ & _ & Hsafe1)
      by (by apply runs_lt).
    split; [|split; [|split]].
    + intros fuel Hfuel. rewrite increment_loop_add_loop.
      apply (add_loop_running 1 (stop - start)); try done; lia.
    + intros fuel Hfuel. eexists. rewrite increment_loop_add_loop.
      apply (add_loop_done 1 (stop - start)); [lia|by right|done|lia].
    + intros fuel p w' Hrun. rewrite increment_loop_add_loop in Hrun.
      by apply add_loop_inv in Hrun as [? _].
    + eexists. apply increment_all_runs. by apply runs_lt.
Qed.

Lemma traversals_stop_at_sentinel_witness :
  reachable (length [1; 2]) 0 2 /\
  print_loop 2 2 0 {| mem := [1; 2]; cout := "" |} = OutOfFuel /\
  (exists w', print_loop 3 2 0 {| mem := [1; 2]; cout := "" |} = Done (2%nat, w')) /\
  Forall (fun v => v < INT_MAX) (slice 0 2 [1; 2]) /\
  increment_loop 2 2 0 {| mem := [1; 2]; cout := "" |} = OutOfFuel /\
  (exists w', increment_loop 3 2 0 {| mem := [1; 2]; cout := "" |} = Done (2%nat, w')).
Proof.
  assert (reachable (length [1; 2]) 0 2) as Hr
    by (apply reach_step; [simpl; lia|];
        apply reach_step; [simpl; lia|]; apply reach_here; simpl; lia).
  assert (Forall (fun v => v < INT_MAX) (slice 0 2 [1; 2])) as Hs
    by (repeat (constructor; [reflexivity|]); constructor).
  pose proof (traversals_stop_at_sentinel 0 2 {| mem := [1; 2]; cout := "" |} Hr)
    as [(Hp1 & Hp2 & _) Hinc].
  destruct (Hinc Hs) as (Hi1 & Hi2 & _).
  split; [exact Hr|]. split; [apply Hp1; simpl; lia|].
  split; [apply Hp2; simpl; lia|]. split; [exact Hs|].
  split; [apply Hi1; simpl; lia|apply Hi2; simpl; lia].
Defined.

(** ** Totality *)

(** C8, as stated, fails: over its documented precondition alone
    [increment_all] is not total, since an element equal to [INT_MAX] makes
    the increment overflow. *)
Lemma increment_all_not_total :
  increment_all 0 1 {| mem := [INT_MAX; 0]; cout := "" |} = Undefined /\
  ~ (forall (start stop : nat) (w : world),
       reachable (length (mem w)) start stop ->
       increment_all start stop w <> Undefined /\
       print_all start stop w <> Undefined).
Proof.
  split; [by vm_compute|]. intros H.
  destruct (H 0%nat 1%nat {| mem := [INT_MAX; 0]; cout := "" |}) as [Hi _].
  - apply reachable_iff. simpl. lia.
  - apply Hi. by vm_compute.
Qed.

(** C8 (amended): when the stop pointer is reachable from the start pointer
    inside the sequence, [print_all] returns, and [increment_all] returns
    provided no element of the range equals [INT_MAX]; both return no value
    and signal nothing; [main] runs both and returns 0. *)
Theorem operations_total (start stop : nat) (w : world) :
  reachable (length (mem w)) start stop ->
  (exists w', print_all start stop w = Done (tt, w')) /\
  (Forall (fun v => v < INT_MAX) (slice start stop (mem w)) ->
   exists w', increment_all start stop w = Done (tt, w')) /\
  (exists w', main = Done (0, w')).
Proof.
  intros [Hle Hin]%reachable_iff. split; [|split].
  - eexists. apply print_all_runs; auto.
  - intros Hsafe. eexists. apply increment_all_runs. by apply runs_lt.
  - eexists. by vm_compute.
Qed.

Lemma operations_total_witness :
  reachable (length [7; 8; 9]) 1 2 /\
  (exists w', print_all 1 2 {| mem := [7; 8; 9]; cout := "" |} = Done (tt, w')) /\
  (exists w', increment_all 1 2 {| mem := [7; 8; 9]; cout := "" |} = Done (tt, w')).
Proof.
  assert (reachable (length [7; 8; 9]) 1 2) as Hr
    by (apply reach_step; [simpl; lia|]; apply reach_here; simpl; lia).
  assert (Forall (fun v => v < INT_MAX) (slice 1 2 [7; 8; 9])) as Hs
    by (repeat (constructor; [reflexivity|]); constructor).
  pose proof (operations_total 1 2 {| mem := [7; 8; 9]; cout := "" |} Hr)
    as (Hp & Hi & _).
  split; [exact Hr|]. split; [exact Hp|exact (Hi Hs)].
Defined.

(** ** The frame of Mutate-All *)

(** C9: for every sequence and every valid subrange [start, stop) of it, a
    call of [increment_all] that returns leaves the length of the sequence,
    every element at a position outside [start, stop) and the output as they
    were; it does return when no element of the subrange equals [INT_MAX]. *)
Theorem increment_all_frame (start stop : nat) (w : world) :
  (start <= stop <= length (mem w))%nat ->
  (forall u w', increment_all start stop w = Done (u, w') ->
     length (mem w') = length (mem w) /\
     cout w' = cout w /\
     forall i, ~ (start <= i < stop)%nat -> mem w' !! i = mem w !! i) /\
  (Forall (fun v => v < INT_MAX) (slice start stop (mem w)) ->
   exists w', increment_all start stop w = Done (tt, w')).
Proof.
  intros Hrange. split.
  - intros u w' [_ ->]%increment_all_inv. simpl.
    split; [apply bump_length|]. split; [done|].
    intros i Hi. rewrite bump_lookup.
    rewrite bool_decide_eq_false_2 by done. by destruct (mem w !! i).
  - intros Hsafe. eexists. apply increment_all_runs. by apply runs_lt.
Qed.

Lemma increment_all_frame_witness :
  (1 <= 2 <= length [3; 4; 5])%nat /\
  increment_all 1 2 {| mem := [3; 4; 5]; cout := "" |} =
    Done (tt, {| mem := [3; 5; 5]; cout := "" |}) /\
  [3; 5; 5] !! 0%nat = [3; 4; 5] !! 0%nat /\
  [3; 5; 5] !! 2%nat = [3; 4; 5] !! 2%nat.
Proof.
  assert (1 <= 2 <= length [3; 4; 5])%nat as H by (simpl; lia).
  assert (increment_all 1 2 {| mem := [3; 4; 5]; cout := "" |} =
          Done (tt, {| mem := [3; 5; 5]; cout := "" |})) as Hrun
    by reflexivity.
  pose proof (increment_all_frame 1 2 {| mem := [3; 4; 5]; cout := "" |} H)
    as [Hframe _].
  destruct (Hframe tt _ Hrun) as (_ & _ & Hout).
  split; [exact H|]. split; [exact Hrun|].
  split; [apply (Hout 0%nat); lia|apply (Hout 2%nat); lia].
Defined.

(** ** Determinism *)

Lemma slice_length start stop (m : list Z) :
  (stop <= length m)%nat -> length (slice start stop m) = (stop - start)%nat.
Proof. intros H. unfold slice. rewrite length_take, length_drop. lia. Qed.

Lemma slice_bump_eq k start stop (m : list Z) :
  (stop <= length m)%nat ->
  slice start stop (bump k start stop m) = (fun v => v + k) <$> slice start stop m.
Proof.
  intros Hstop. apply list_eq; intros j. rewrite list_lookup_fmap.
  destruct (decide (j < stop - start)%nat) as [Hj|Hj].
  - rewrite !slice_lookup by done. rewrite bump_lookup.
    destruct (m !! (start + j)%nat) as [v|]; [|done]. simpl.
    by rewrite bool_decide_eq_true_2 by lia.
  - rewrite !lookup_ge_None_2; [done|..].
    + rewrite slice_length by done. lia.
    + rewrite slice_length by (by rewrite bump_length). lia.
Qed.

Lemma runs_slice k start stop (m1 m2 : list Z) :
  slice start stop m1 = slice start stop m2 ->
  (stop <= length m1)%nat -> (stop <= length m2)%nat ->
  runs k start stop m1 -> runs k start stop m2.
Proof.
  intros Heq H1 H2 (Hle & _ & Hsafe).
  split; [done|]. split; [by right|]. by rewrite <- Heq.
Qed.

(** C10: both operations are functions of their input.  Two runs of
    [print_all] over a range holding the same elements write the same text,
    whatever the rest of the two sequences and the text written before; two
    runs of [increment_all] over such a range end alike, with the same
    elements in the range; and on equal sequences [increment_all] leaves equal
    sequences. *)
Theorem traversals_deterministic (start stop : nat) (w1 w2 : world) :
  slice start stop (mem w1) = slice start stop (mem w2) ->
  (start <= stop)%nat ->
  (stop <= length (mem w1))%nat -> (stop <= length (mem w2))%nat ->
  (exists text,
     print_all start stop w1 =
       Done (tt, {| mem := mem w1; cout := cout w1 +:+ text |}) /\
     print_all start stop w2 =
       Done (tt, {| mem := mem w2; cout := cout w2 +:+ text |})) /\
  outcome_map (fun w => slice start stop (mem w))
      (final (increment_all start stop w1)) =
    outcome_map (fun w => slice start stop (mem w))
      (final (increment_all start stop w2)) /\
  (mem w1 = mem w2 ->
   outcome_map mem (final (increment_all start stop w1)) =
   outcome_map mem (final (increment_all start stop w2))).
Proof.
  intros Heq Hle H1 H2. split; [|split].
  - exists (print_text (slice start stop (mem w1))). split.
    + apply print_all_runs; auto.
    + rewrite Heq. apply print_all_runs; auto.
  - destruct (decide (runs 1 start stop (mem w1))) as [Hr|Hr].
    + rewrite !increment_all_runs by eauto using runs_slice. simpl.
      rewrite !slice_bump_eq by done. by rewrite Heq.
    + rewrite !increment_all_undefined; [done|..|done].
      intros Hr2. apply Hr. by apply (runs_slice _ _ _ (mem w2)).
  - intros Hmem. destruct (decide (runs 1 start stop (mem w1))) as [Hr|Hr].
    + rewrite !increment_all_runs by (by rewrite <- ?Hmem). simpl.
      by rewrite Hmem.
    + rewrite !increment_all_undefined by (by rewrite <- ?Hmem). done.
Qed.

Lemma traversals_deterministic_witness :
  slice 1 3 [1; 2; 3] = slice 1 3 [9; 2; 3; 4] /\
  exists text,
    print_all 1 3 {| mem := [1; 2; 3]; cout := "a" |} =
      Done (tt, {| mem := [1; 2; 3]; cout := "a" +:+ text |}) /\
    print_all 1 3 {| mem := [9; 2; 3; 4]; cout := "b" |} =
      Done (tt, {| mem := [9; 2; 3; 4]; cout := "b" +:+ text |}).
Proof.
  assert (slice 1 3 [1; 2; 3] = slice 1 3 [9; 2; 3; 4]) as Heq by reflexivity.
  split; [exact Heq|].
  refine (proj1 (traversals_deterministic 1 3
           {| mem := [1; 2; 3]; cout := "a" |}
           {| mem := [9; 2; 3; 4]; cout := "b" |} Heq _ _ _)); simpl; lia.
Defined.

(** * Further properties of the traversals *)

(** ** Ranges, again *)

Lemma slice_Forall_lookup (P : Z -> Prop) start stop (m : list Z) :
  Forall P (slice start stop m) <->
  (forall i v, (start <= i < stop)%nat -> m !! i = Some v -> P v).
Proof.
  rewrite Forall_lookup. split.
  - intros H i v Hi Hv. apply (H (i - start)%nat).
    rewrite slice_lookup by lia. by replace (start + (i - start))%nat with i by lia.
  - intros H j v Hv.
    assert (j < stop - start)%nat as Hj.
    { apply lookup_lt_Some in Hv. unfold slice in Hv.
      rewrite length_take in Hv. lia. }
    rewrite slice_lookup in Hv by done. apply (H (start + j)%nat); [lia|done].
Qed.

Lemma slice_app start mid stop (m : list Z) :
  (start <= mid <= stop)%nat ->
  slice start stop m = slice start mid m ++ slice mid stop m.
Proof.
  intros [H1 H2]. unfold slice.
  replace (drop mid m) with (drop (mid - start) (drop start m))
    by (rewrite drop_drop; f_equal; lia).
  rewrite take_take_drop. f_equal. lia.
Qed.

Lemma print_text_app vs1 vs2 :
  print_text (vs1 ++ vs2) = print_text vs1 +:+ print_text vs2.
Proof.
  induction vs1 as [|v vs1 IH]; [done|]. simpl.
  by rewrite IH, !string_app_assoc.
Qed.

Lemma bump_split k start mid stop (m : list Z) :
  (start <= mid <= stop)%nat ->
  bump k mid stop (bump k start mid m) = bump k start stop m.
Proof.
  intros Hmid. apply list_eq; intros i. rewrite !bump_lookup.
  destruct (m !! i) as [v|]; [|done]. simpl. f_equal.
  repeat case_bool_decide; try done; lia.
Qed.

Lemma bump_comm j k a b c d (m : list Z) :
  bump k c d (bump j a b m) = bump j a b (bump k c d m).
Proof.
  apply list_eq; intros i. rewrite !bump_lookup.
  destruct (m !! i) as [v|]; [|done]. simpl. f_equal.
  repeat case_bool_decide; lia.
Qed.

Lemma bump_inj k start stop (m1 m2 : list Z) :
  bump k start stop m1 = bump k start stop m2 -> m1 = m2.
Proof.
  intros Heq. apply list_eq; intros i.
  apply (f_equal (fun l => l !! i)) in Heq. rewrite !bump_lookup in Heq.
  destruct (m1 !! i) as [v1|], (m2 !! i) as [v2|]; simpl in Heq; try done.
  f_equal. injection Heq. case_bool_decide; lia.
Qed.

(** ** When the traversals are undefined *)

(** X1: on an array of [int]s, [increment_all] is undefined exactly when the
    stop pointer lies before the start pointer, or the range is not empty and
    ends beyond the array, or an element of the range equals [INT_MAX]; in
    every other case it returns. *)
Theorem increment_all_undefined_iff (start stop : nat) (w : world) :
  Forall is_int (mem w) ->
  (increment_all start stop w = Undefined <->
   (stop < start)%nat \/
   (start < stop /\ length (mem w) < stop)%nat \/
   (exists i, (start <= i < stop)%nat /\ mem w !! i = Some INT_MAX)) /\
  (increment_all start stop w <> Undefined ->
   exists w', increment_all start stop w = Done (tt, w')).
Proof.
  intros Hint. split; [split|].
  - intros Hun.
    destruct (decide (runs 1 start stop (mem w))) as [Hr|Hr].
    { by rewrite increment_all_runs in Hun. }
    destruct (decide (stop < start)%nat) as [?|Hle]; [by left|right].
    destruct (decide (start < stop /\ length (mem w) < stop)%nat)
      as [?|Hin]; [by left|right].
    destruct (decide (Forall (fun v => v + 1 <= INT_MAX)
                        (slice start stop (mem w)))) as [Hs|Hs].
    { destruct Hr. split; [lia|]. split; [lia|done]. }
    apply not_Forall_Exists in Hs; [|apply _].
    apply Exists_exists in Hs as (x & [j Hj]%list_elem_of_lookup & Hx).
    assert (j < stop - start)%nat as Hlt.
    { apply lookup_lt_Some in Hj. unfold slice in Hj.
      rewrite length_take in Hj. lia. }
    rewrite slice_lookup in Hj by done.
    exists (start + j)%nat. split; [lia|]. rewrite Hj. f_equal.
    pose proof (proj1 (Forall_lookup _ _) Hint _ _ Hj) as [_ Hhi].
    simpl in Hx. lia.
  - intros Hbad. apply increment_all_undefined. intros (Hle & Hin & Hs).
    destruct Hbad as [?|[[? ?]|(i & Hi & Hv)]]; [lia..|].
    apply slice_Forall_lookup with (i := i) (v := INT_MAX) in Hs; [|done..].
    unfold INT_MAX in Hs. lia.
  - intros Hdef.
    destruct (decide (runs 1 start stop (mem w))) as [Hr|Hr].
    + eexists. by apply increment_all_runs.
    + by rewrite increment_all_undefined in Hdef.
Qed.

Lemma increment_all_undefined_iff_witness :
  Forall is_int [1; INT_MAX; 3] /\
  increment_all 0 2 {| mem := [1; INT_MAX; 3]; cout := "" |} = Undefined /\
  exists w', increment_all 2 3 {| mem := [1; INT_MAX; 3]; cout := "" |} =
             Done (tt, w').
Proof.
  assert (Forall is_int [1; INT_MAX; 3]) as H
    by (repeat (constructor; [split; by vm_compute|]); constructor).
  split; [exact H|]. split.
  - apply (proj1 (increment_all_undefined_iff 0 2
              {| mem := [1; INT_MAX; 3]; cout := "" |} H)).
    right. right. exists 1%nat. split; [lia|reflexivity].
  - apply (proj2 (increment_all_undefined_iff 2 3
              {| mem := [1; INT_MAX; 3]; cout := "" |} H)).
    by vm_compute.
Defined.

(** X2: [print_all] is undefined exactly when the stop pointer lies before
    the start pointer, or the range is not empty and ends beyond the array;
    in every other case it returns. *)
Theorem print_all_undefined_iff (start stop : nat) (w : world) :
  (print_all start stop w = Undefined <->
   (stop < start)%nat \/ (start < stop /\ length (mem w) < stop)%nat) /\
  (print_all start stop w <> Undefined <->
   exists w', print_all start stop w = Done (tt, w')).
Proof.
  destruct (decide ((start <= stop)%nat /\
                    (start = stop \/ stop <= length (mem w))%nat)) as [Hv|Hv].
  - destruct Hv as [Hle Hin]. rewrite print_all_runs by done.
    split; split; try done.
    + intros [?|[? ?]]; lia.
    + intros _. by eexists.
  - rewrite print_all_undefined by done. split; split; try done.
    + intros _. destruct (decide (stop < start)%nat); [by left|right]. lia.
    + by intros [w' ?].
Qed.

(** ** Subranges *)

(** X3: over a subrange [start, stop) of the array none of whose elements
    equals [INT_MAX], [increment_all] returns; the array keeps its length,
    each element of the subrange has grown by exactly 1 and each other
    element is as before. *)
Theorem increment_all_subrange (start stop : nat) (w : world) :
  (start <= stop <= length (mem w))%nat ->
  Forall (fun v => v < INT_MAX) (slice start stop (mem w)) ->
  exists m',
    increment_all start stop w = Done (tt, {| mem := m'; cout := cout w |}) /\
    length m' = length (mem w) /\
    (forall i v, mem w !! i = Some v ->
       m' !! i = Some (if bool_decide (start <= i < stop)%nat then v + 1 else v)) /\
    slice start stop m' = (fun v => v + 1) <$> slice start stop (mem w).
Proof.
  intros Hrange Hsafe. exists (bump 1 start stop (mem w)).
  split; [|split; [|split]].
  - apply increment_all_runs. by apply runs_lt.
  - apply bump_length.
  - intros i v Hv. by rewrite bump_lookup, Hv.
  - apply slice_bump_eq. lia.
Qed.

Lemma increment_all_subrange_witness :
  (1 <= 3 <= length [4; 5; 6; 7])%nat /\
  Forall (fun v => v < INT_MAX) (slice 1 3 [4; 5; 6; 7]) /\
  exists m',
    increment_all 1 3 {| mem := [4; 5; 6; 7]; cout := "" |} =
      Done (tt, {| mem := m'; cout := "" |}) /\
    length m' = 4%nat.
Proof.
  assert (1 <= 3 <= length [4; 5; 6; 7])%nat as H by (simpl; lia).
  assert (Forall (fun v => v < INT_MAX) (slice 1 3 [4; 5; 6; 7])) as Hs
    by (repeat (constructor; [reflexivity|]); constructor).
  split; [exact H|]. split; [exact Hs|].
  destruct (increment_all_subrange 1 3 {| mem := [4; 5; 6; 7]; cout := "" |} H Hs)
    as (m' & Hrun & Hlen & _).
  exists m'. split; [exact Hrun|exact Hlen].
Defined.

(** X4: over a subrange [start, stop) of the array, [print_all] keeps what
    was written before and appends exactly [stop - start] lines, the decimal
    texts of the elements of the subrange in ascending order of position. *)
Theorem print_all_subrange (start stop : nat) (w : world) :
  (start <= stop <= length (mem w))%nat ->
  exists text,
    print_all start stop w =
      Done (tt, {| mem := mem w; cout := cout w +:+ text |}) /\
    lines text = dec <$> slice start stop (mem w) /\
    length (lines text) = (stop - start)%nat /\
    (forall j, (j < stop - start)%nat ->
       lines text !! j = dec <$> mem w !! (start + j)%nat).
Proof.
  intros [Hle Hin]. exists (print_text (slice start stop (mem w))).
  split; [|split; [|split]].
  - apply print_all_runs; auto.
  - apply lines_print_text.
  - by rewrite lines_print_text, length_fmap, slice_length.
  - intros j Hj. by rewrite lines_print_text, list_lookup_fmap, slice_lookup.
Qed.

Lemma print_all_subrange_witness :
  (1 <= 3 <= length [4; 5; 6; 7])%nat /\
  exists text,
    print_all 1 3 {| mem := [4; 5; 6; 7]; cout := "x" |} =
      Done (tt, {| mem := [4; 5; 6; 7]; cout := "x" +:+ text |}) /\
    lines text = ["5"; "6"].
Proof.
  assert (1 <= 3 <= length [4; 5; 6; 7])%nat as H by (simpl; lia).
  split; [exact H|].
  destruct (print_all_subrange 1 3 {| mem := [4; 5; 6; 7]; cout := "x" |} H)
    as (text & Hrun & Hlines & _).
  exists text. split; [exact Hrun|exact Hlines].
Defined.

(** ** Splitting a range *)

Lemma runs_split k start mid stop (m : list Z) :
  (start <= mid <= stop)%nat ->
  runs k start stop m <->
  runs k start mid m /\ runs k mid stop (bump k start mid m).
Proof.
  intros [H1 H2]. unfold runs. rewrite bump_length.
  rewrite !slice_Forall_lookup. split.
  - intros (Hle & Hin & Hs). repeat split; try lia.
    + intros i v Hi Hv. apply (Hs i); [lia|done].
    + intros i v Hi Hv. rewrite bump_lookup in Hv.
      destruct (m !! i) as [x|] eqn:Hx; [|done]. simpl in Hv.
      rewrite bool_decide_eq_false_2 in Hv by lia. injection Hv as <-.
      apply (Hs i); [lia|done].
  - intros [(_ & Hin1 & Hs1) (_ & Hin2 & Hs2)]. repeat split; try lia.
    intros i v Hi Hv. destruct (decide (i < mid)%nat) as [Hlt|Hge].
    + apply (Hs1 i); [lia|done].
    + apply (Hs2 i); [lia|]. rewrite bump_lookup, Hv. simpl.
      by rewrite bool_decide_eq_false_2 by lia.
Qed.

(** X5: for [start <= mid <= stop], running [increment_all] over
    [start, mid) and then over [mid, stop) has the same outcome, undefined
    behaviour included, as running it once over [start, stop). *)
Theorem increment_all_split (start mid stop : nat) (w : world) :
  (start <= mid <= stop)%nat ->
  (increment_all start mid;; increment_all mid stop) w =
  increment_all start stop w.
Proof.
  intros Hmid. unfold mbind, M_bind.
  destruct (decide (runs 1 start stop (mem w))) as [Hr|Hr].
  - apply (runs_split 1 start mid stop) in Hr as Hr'; [|done].
    destruct Hr' as [Hr1 Hr2].
    rewrite (increment_all_runs start mid) by done.
    rewrite (increment_all_runs mid stop) by done. simpl.
    rewrite (increment_all_runs start stop) by done.
    by rewrite bump_split.
  - rewrite (increment_all_undefined start stop) by done.
    destruct (decide (runs 1 start mid (mem w))) as [Hr1|Hr1].
    + rewrite (increment_all_runs start mid) by done.
      apply increment_all_undefined. simpl. intros Hr2.
      apply Hr. by apply (runs_split 1 start mid stop).
    + by rewrite (increment_all_undefined start mid).
Qed.

Lemma increment_all_split_witness :
  (0 <= 1 <= 3)%nat /\
  (increment_all 0 1;; increment_all 1 3) {| mem := [4; 5; 6]; cout := "" |} =
  increment_all 0 3 {| mem := [4; 5; 6]; cout := "" |}.
Proof.
  assert (0 <= 1 <= 3)%nat as H by lia.
  split; [exact H|].
  exact (increment_all_split 0 1 3 {| mem := [4; 5; 6]; cout := "" |} H).
Defined.

(** X6: for [start <= mid <= stop], running [print_all] over [start, mid)
    and then over [mid, stop) has the same outcome, undefined behaviour
    included, as running it once over [start, stop): the same text is
    written. *)
Theorem print_all_split (start mid stop : nat) (w : world) :
  (start <= mid <= stop)%nat ->
  (print_all start mid;; print_all mid stop) w = print_all start stop w.
Proof.
  intros Hmid. unfold mbind, M_bind.
  destruct (decide (start = stop \/ stop <= length (mem w))%nat) as [Hin|Hin].
  - rewrite (print_all_runs start mid) by lia.
    rewrite (print_all_runs mid stop) by (simpl; lia). simpl.
    rewrite (print_all_runs start stop) by lia.
    rewrite (slice_app start mid stop) by done.
    by rewrite print_text_app, string_app_assoc.
  - rewrite (print_all_undefined start stop) by (intros [_ ?]; lia).
    destruct (decide (start = mid \/ mid <= length (mem w))%nat) as [Hin1|Hin1].
    + rewrite (print_all_runs start mid) by lia.
      apply print_all_undefined. simpl. lia.
    + by rewrite (print_all_undefined start mid) by (intros [_ ?]; lia).
Qed.

Lemma print_all_split_witness :
  (0 <= 2 <= 3)%nat /\
  (print_all 0 2;; print_all 2 3) {| mem := [4; 5; 6]; cout := "" |} =
  print_all 0 3 {| mem := [4; 5; 6]; cout := "" |}.
Proof.
  assert (0 <= 2 <= 3)%nat as H by lia.
  split; [exact H|].
  exact (print_all_split 0 2 3 {| mem := [4; 5; 6]; cout := "" |} H).
Defined.

(** ** Incrementing, then printing *)

(** X7: over a subrange none of whose elements equals [INT_MAX], running
    [increment_all] and then [print_all] over it, as [main] does, returns
    and writes the decimal texts of the old elements plus 1, one per line. *)
Theorem increment_then_print (start stop : nat) (w : world) :
  (start <= stop <= length (mem w))%nat ->
  Forall (fun v => v < INT_MAX) (slice start stop (mem w)) ->
  exists text,
    (increment_all start stop;; print_all start stop) w =
      Done (tt, {| mem := bump 1 start stop (mem w);
                   cout := cout w +:+ text |}) /\
    lines text = (fun v => dec (v + 1)) <$> slice start stop (mem w).
Proof.
  intros Hrange Hsafe.
  exists (print_text ((fun v => v + 1) <$> slice start stop (mem w))). split.
  - unfold mbind, M_bind.
    rewrite increment_all_runs by (by apply runs_lt).
    rewrite print_all_runs; simpl; rewrite ?bump_length; [|lia..].
    by rewrite slice_bump_eq by lia.
  - by rewrite lines_print_text, <- list_fmap_compose.
Qed.

Lemma increment_then_print_witness :
  (0 <= 2 <= length [7; 8; 9])%nat /\
  Forall (fun v => v < INT_MAX) (slice 0 2 [7; 8; 9]) /\
  exists text,
    (increment_all 0 2;; print_all 0 2) {| mem := [7; 8; 9]; cout := "" |} =
      Done (tt, {| mem := [8; 9; 9]; cout := "" +:+ text |}) /\
    lines text = ["8"; "9"].
Proof.
  assert (0 <= 2 <= length [7; 8; 9])%nat as H by (simpl; lia).
  assert (Forall (fun v => v < INT_MAX) (slice 0 2 [7; 8; 9])) as Hs
    by (repeat (constructor; [reflexivity|]); constructor).
  split; [exact H|]. split; [exact Hs|].
  exact (increment_then_print 0 2 {| mem := [7; 8; 9]; cout := "" |} H Hs).
Defined.

(** ** The elements stay representable *)

(** X8: when every element of the array is an [int] and [increment_all]
    returns, every element of the array it leaves is an [int]. *)
Theorem increment_all_keeps_int (start stop : nat) (w w' : world) (u : unit) :
  Forall is_int (mem w) ->
  increment_all start stop w = Done (u, w') ->
  Forall is_int (mem w').
Proof.
  intros Hint [Hr ->]%increment_all_inv. simpl.
  by apply bump_is_int.
Qed.

Lemma increment_all_keeps_int_witness :
  Forall is_int [INT_MIN; -1; INT_MAX - 1] /\
  Forall is_int [INT_MIN + 1; 0; INT_MAX].
Proof.
  assert (Forall is_int [INT_MIN; -1; INT_MAX - 1]) as H
    by (repeat (constructor; [split; by vm_compute|]); constructor).
  split; [exact H|].
  apply (increment_all_keeps_int 0 3
           {| mem := [INT_MIN; -1; INT_MAX - 1]; cout := "" |}
           {| mem := [INT_MIN + 1; 0; INT_MAX]; cout := "" |} tt H).
  reflexivity.
Defined.

(** ** Reading the output back *)

Lemma read_lines_print_text vs : read_lines (print_text vs) = Some vs.
Proof.
  unfold read_lines. rewrite lines_print_text.
  apply mapM_fmap_Some, read_dec_dec.
Qed.

(** X9: the text [print_all] appends over a subrange of the array reads
    back, line by line, as the elements of the subrange. *)
Theorem print_all_read_back (start stop : nat) (w : world) :
  (start <= stop <= length (mem w))%nat ->
  exists text,
    print_all start stop w =
      Done (tt, {| mem := mem w; cout := cout w +:+ text |}) /\
    read_lines text = Some (slice start stop (mem w)).
Proof.
  intros [Hle Hin]. exists (print_text (slice start stop (mem w))).
  split; [apply print_all_runs; auto|apply read_lines_print_text].
Qed.

Lemma print_all_read_back_witness :
  (1 <= 3 <= length [-4; 0; 12; 7]%Z)%nat /\
  exists text,
    print_all 1 3 {| mem := [-4; 0; 12; 7]; cout := "" |} =
      Done (tt, {| mem := [-4; 0; 12; 7]; cout := "" +:+ text |}) /\
    read_lines text = Some [0; 12].
Proof.
  assert (1 <= 3 <= length [-4; 0; 12; 7]%Z)%nat as H by (simpl; lia).
  split; [exact H|].
  exact (print_all_read_back 1 3 {| mem := [-4; 0; 12; 7]; cout := "" |} H).
Defined.

(** X10: when two runs of [print_all], over subranges of two arrays, append
    the same text, the two subranges hold the same elements. *)
Theorem print_all_text_inj (s1 e1 s2 e2 : nat) (w1 w2 : world) (text : string) :
  (s1 <= e1 <= length (mem w1))%nat ->
  (s2 <= e2 <= length (mem w2))%nat ->
  print_all s1 e1 w1 = Done (tt, {| mem := mem w1; cout := cout w1 +:+ text |}) ->
  print_all s2 e2 w2 = Done (tt, {| mem := mem w2; cout := cout w2 +:+ text |}) ->
  slice s1 e1 (mem w1) = slice s2 e2 (mem w2).
Proof.
  intros [Hle1 Hin1] [Hle2 Hin2] Hrun1 Hrun2.
  rewrite print_all_runs in Hrun1 by auto.
  rewrite print_all_runs in Hrun2 by auto.
  injection Hrun1 as Ht1%String.app_inj.
  injection Hrun2 as Ht2%String.app_inj.
  assert (Some (slice s1 e1 (mem w1)) = Some (slice s2 e2 (mem w2))) as Heq.
  { rewrite <- !read_lines_print_text. by rewrite Ht1, Ht2. }
  by injection Heq.
Qed.

Lemma print_all_text_inj_witness :
  slice 0 2 [5; 6; 7] = slice 1 3 [9; 5; 6].
Proof.
  apply (print_all_text_inj 0 2 1 3
           {| mem := [5; 6; 7]; cout := "" |}
           {| mem := [9; 5; 6]; cout := "" |}
           ("5" +:+ newline +:+ "6" +:+ newline)).
  - simpl; lia.
  - simpl; lia.
  - reflexivity.
  - reflexivity.
Defined.

(** ** Repeated and reordered passes *)

Lemma bump_zero start stop (m : list Z) : bump 0 start stop m = m.
Proof.
  apply list_eq; intros i. rewrite bump_lookup.
  destruct (m !! i) as [v|]; [|done]. simpl. f_equal.
  case_bool_decide; lia.
Qed.

(** X11: over a subrange of the array, [n] successive passes of
    [increment_all] return when no element of the subrange exceeds
    [INT_MAX - n], and leave the array in which exactly the elements of the
    subrange have grown by [n]. *)
Theorem increment_all_passes (n : nat) : forall (start stop : nat) (w : world),
  (start <= stop <= length (mem w))%nat ->
  Forall (fun v => v + Z.of_nat n <= INT_MAX) (slice start stop (mem w)) ->
  passes n (increment_all start stop) w =
  Done (tt, {| mem := bump (Z.of_nat n) start stop (mem w); cout := cout w |}).
Proof.
  induction n as [|n IH]; intros start stop w Hrange Hsafe.
  - simpl. rewrite bump_zero. by destruct w.
  - simpl. unfold mbind, M_bind.
    rewrite increment_all_runs.
    + rewrite IH; simpl; rewrite ?bump_length; [|done|].
      * rewrite bump_bump.
        by replace (1 + Z.of_nat n) with (Z.of_nat (S n)) by lia.
      * apply slice_bump; [lia|].
        eapply Forall_impl; [exact Hsafe|]. simpl. lia.
    + split; [lia|]. split; [right; lia|].
      eapply Forall_impl; [exact Hsafe|]. simpl. lia.
Qed.

Lemma increment_all_passes_witness :
  (1 <= 2 <= length [4; 5; 6])%nat /\
  Forall (fun v => v + Z.of_nat 3 <= INT_MAX) (slice 1 2 [4; 5; 6]) /\
  passes 3 (increment_all 1 2) {| mem := [4; 5; 6]; cout := "" |} =
  Done (tt, {| mem := [4; 8; 6]; cout := "" |}).
Proof.
  assert (1 <= 2 <= length [4; 5; 6])%nat as H by (simpl; lia).
  assert (Forall (fun v => v + Z.of_nat 3 <= INT_MAX) (slice 1 2 [4; 5; 6])) as Hs
    by (repeat (constructor; [by vm_compute|]); constructor).
  split; [exact H|]. split; [exact Hs|].
  exact (increment_all_passes 3 1 2 {| mem := [4; 5; 6]; cout := "" |} H Hs).
Defined.

(** X12: [increment_all] loses nothing: two states from which it returns
    the same state, over the same range, are equal. *)
Theorem increment_all_inj (start stop : nat) (w1 w2 w' : world) :
  increment_all start stop w1 = Done (tt, w') ->
  increment_all start stop w2 = Done (tt, w') ->
  w1 = w2.
Proof.
  intros [_ H1]%increment_all_inv [_ H2]%increment_all_inv.
  rewrite H1 in H2. injection H2 as Hm%bump_inj Hc.
  destruct w1, w2; simpl in *; congruence.
Qed.

Lemma increment_all_inj_witness :
  {| mem := [4; 5]; cout := "a" |} = {| mem := [4; 2 + 3]; cout := "a" |}.
Proof.
  apply (increment_all_inj 0 2 _ _ {| mem := [5; 6]; cout := "a" |});
    reflexivity.
Defined.

Lemma runs_swap j k a b c d (m : list Z) :
  0 <= j -> 0 <= k ->
  runs j a b m -> runs k c d (bump j a b m) ->
  runs k c d m /\ runs j a b (bump k c d m).
Proof.
  unfold runs. rewrite !bump_length, !slice_Forall_lookup.
  intros Hj Hk (Hab & Hin1 & Hs1) (Hcd & Hin2 & Hs2). repeat split; try done.
  - intros i v Hi Hv.
    specialize (Hs2 i (if bool_decide (a <= i < b)%nat then v + j else v) Hi).
    rewrite bump_lookup, Hv in Hs2. specialize (Hs2 eq_refl).
    case_bool_decide; lia.
  - intros i x Hi Hx. rewrite bump_lookup in Hx.
    destruct (m !! i) as [v|] eqn:Hv; [|done]. simpl in Hx. injection Hx as <-.
    case_bool_decide as Hin.
    + specialize (Hs2 i (v + j) Hin). rewrite bump_lookup, Hv in Hs2. simpl in Hs2.
      rewrite bool_decide_eq_true_2 in Hs2 by done.
      specialize (Hs2 eq_refl). lia.
    + by apply (Hs1 i).
Qed.

Lemma increment_all_then start stop start' stop' w :
  (increment_all start stop;; increment_all start' stop') w =
  if decide (runs 1 start stop (mem w) /\
             runs 1 start' stop' (bump 1 start stop (mem w)))
  then Done (tt, {| mem := bump 1 start' stop' (bump 1 start stop (mem w));
                    cout := cout w |})
  else Undefined.
Proof.
  unfold mbind, M_bind. case_decide as H.
  - destruct H as [H1 H2]. rewrite increment_all_runs by done.
    by rewrite increment_all_runs.
  - destruct (decide (runs 1 start stop (mem w))) as [H1|H1].
    + rewrite increment_all_runs by done.
      apply increment_all_undefined. simpl. tauto.
    + by rewrite increment_all_undefined.
Qed.

(** X13: two passes of [increment_all], over any two ranges, have the same
    outcome in either order, undefined behaviour included. *)
Theorem increment_all_comm (a b c d : nat) (w : world) :
  (increment_all a b;; increment_all c d) w =
  (increment_all c d;; increment_all a b) w.
Proof.
  rewrite !increment_all_then. rewrite bump_comm.
  apply decide_ext. split; intros [H1 H2].
  - by apply (runs_swap 1 1 a b c d).
  - by apply (runs_swap 1 1 c d a b).
Qed.
